(** * CPPExceptionHandling: the exception and resource classes of main.cpp

    A shallow embedding of [CustomResourceException] and [Resource]
    (src/main.cpp) and the properties of their lifecycle:
    construction, [performOperation], [close], the destructor, and the
    move constructor and move assignment operator; then of the programs
    that use them: scopes, [demonstrateNestedExceptions], [divide] and
    [main]. *)

From stdpp Require Import base option strings gmap fin_maps.

Local Open Scope string_scope.
#[local] Set Warnings "-register-all".

(** ** The parts of the C++ standard library the program relies on *)

(** What the language standard leaves to the library implementation and
    the program nevertheless observes. *)
Class StdLib := {
  (** [what()] of an object of dynamic type [std::exception] that was
      copy-constructed from an exception whose own [what()] is the
      argument.  The standard only promises an implementation-defined
      string. *)
  sliced_what : string -> string;
  (** the contents of a [std::string] after it was the source of a move
      construction (valid but unspecified) *)
  moved_from : string -> string;
  (** the contents of the source after a move assignment; the first
      argument is what the destination held, the second what the source
      held *)
  moved_from_assign : string -> string -> string
}.

(** libstdc++ (GCC) and libc++ (Clang): [std::exception] has no data
    member and its [what()] is a fixed string; a moved-from string is
    empty. *)
Definition libstdcxx : StdLib :=
  {| sliced_what := fun _ => "std::exception";
     moved_from := fun _ => "";
     moved_from_assign := fun _ _ => "" |}.

(** The MSVC library: [std::exception] itself stores the message, which
    its copy constructor duplicates. *)
Definition msvc_stl : StdLib :=
  {| sliced_what := fun m => m;
     moved_from := fun _ => "";
     moved_from_assign := fun _ _ => "" |}.

(** The newline character of the literals ["...\n"] and ['\n']. *)
Definition nl : string := String (Ascii.ascii_of_nat 10) EmptyString.

(** ** Exceptions *)

(** Exception objects by dynamic type.  [nested_ptr_] is a
    [std::shared_ptr<std::exception>]: it may be null, and what it
    points to is referred to through the base class. *)
Inductive exception : Type :=
  | std_exception (what_ : string)
  | runtime_error (what_arg : string)
  | invalid_argument (what_arg : string)
  | CustomResourceException (message : string) (nested_ptr_ : option exception).

(** The virtual [what()]. *)
Definition what (e : exception) : string :=
  match e with
  | std_exception w => w
  | runtime_error m => m
  | invalid_argument m => m
  | CustomResourceException m _ => m
  end.

Section WithStdLib.
Context `{StdLib}.

(** [std::make_shared<std::exception>(nested)]: the copy constructor of
    the base class [std::exception] applied to [nested]; the new object
    has dynamic type [std::exception]. *)
Definition make_shared_exception (nested : exception) : exception :=
  std_exception (sliced_what (what nested)).

(** [explicit CustomResourceException(const std::string& message)] *)
Definition CustomResourceException_msg (message : string) : exception :=
  CustomResourceException message None.

(** [CustomResourceException(const std::string& message,
                             const std::exception& nested)] *)
Definition CustomResourceException_nested
    (message : string) (nested : exception) : exception :=
  CustomResourceException message (Some (make_shared_exception nested)).

End WithStdLib.

(** [const std::exception* nested() const]; [None] is the null pointer.
    Only a [CustomResourceException] has the member. *)
Definition nested (e : exception) : option exception :=
  match e with
  | CustomResourceException _ nested_ptr_ => nested_ptr_
  | _ => None
  end.

(** ** Control flow: return, throw, terminate *)

Inductive outcome (A : Type) : Type :=
  | Returns (a : A)
  | Throws (e : exception)
  | Terminates.
Arguments Returns {A} a.
Arguments Throws {A} e.
Arguments Terminates {A}.

(** A computation over a state [S]; the state reached is kept on every
    path, so what was done before a [throw] stays done. *)
Definition M (S A : Type) : Type := S -> outcome A * S.

Definition ret {S A} (a : A) : M S A := fun s => (Returns a, s).

Definition bind {S A B} (m : M S A) (k : A -> M S B) : M S B :=
  fun s =>
    match m s with
    | (Returns a, s') => k a s'
    | (Throws e, s') => (Throws e, s')
    | (Terminates, s') => (Terminates, s')
    end.

Definition throw {S A} (e : exception) : M S A := fun s => (Throws e, s).

Definition gets {S A} (f : S -> A) : M S A := fun s => (Returns (f s), s).

Definition modify {S} (f : S -> S) : M S unit := fun s => (Returns tt, f s).

(** [try { body } catch (const T& e) { handler }]: [handler e] is
    [Some h] when the dynamic type of [e] matches the clause, and then
    [h] runs; any other exception goes on propagating. *)
Definition try_catch {S A} (body : M S A)
    (handler : exception -> option (M S A)) : M S A :=
  fun s =>
    match body s with
    | (Throws e, s') =>
        match handler e with
        | Some h => h s'
        | None => (Throws e, s')
        end
    | r => r
    end.

(** A [noexcept] function: an exception that would leave it calls
    [std::terminate]. *)
Definition noexcept {S A} (body : M S A) : M S A :=
  fun s =>
    match body s with
    | (Throws _, s') => (Terminates, s')
    | r => r
    end.

#[global] Instance M_ret {S} : MRet (M S) := fun _ a => ret a.
#[global] Instance M_bind {S} : MBind (M S) := fun _ _ k m => bind m k.

(** ** The console *)

Record Console : Type := { cout : string; cerr : string }.

Definition cout_put {S} (upd : (Console -> Console) -> S -> S)
    (text : string) : M S unit :=
  modify (upd (fun c => {| cout := cout c +:+ text; cerr := cerr c |})).

Definition cerr_put {S} (upd : (Console -> Console) -> S -> S)
    (text : string) : M S unit :=
  modify (upd (fun c => {| cout := cout c; cerr := cerr c +:+ text |})).

(** ** class Resource *)

Record Resource : Type := { name_ : string; is_open_ : bool }.

(** A member function runs on its object and the console. *)
Record Frame : Type := { this : Resource; io : Console }.

Definition on_io (f : Console -> Console) (fr : Frame) : Frame :=
  {| this := this fr; io := f (io fr) |}.

Definition set_is_open_ (b : bool) : M Frame unit :=
  modify (fun fr =>
    {| this := {| name_ := name_ (this fr); is_open_ := b |}; io := io fr |}).

Section WithStdLib.
Context `{StdLib}.

(** [explicit Resource(std::string name)] *)
Definition Resource_ctor (name : string) : M Console Resource :=
  let r := {| name_ := name; is_open_ := true |} in
  cout_put id "Resource ";;
  cout_put id (name_ r);;
  cout_put id (" opened" +:+ nl);;
  mret r.

(** [void performOperation()] *)
Definition performOperation : M Frame unit :=
  is_open ← gets (fun fr => is_open_ (this fr));
  (if negb is_open then
     name ← gets (fun fr => name_ (this fr));
     throw (CustomResourceException_msg
              ("Resource " +:+ name +:+ " is closed"))
   else mret tt);;
  name ← gets (fun fr => name_ (this fr));
  (if String.eqb name "faulty" then
     throw (CustomResourceException_msg
              ("Resource " +:+ name +:+ " is faulty"))
   else mret tt);;
  cout_put on_io "Operation performed on resource ";;
  cout_put on_io name;;
  cout_put on_io nl.

(** [void close()] *)
Definition close : M Frame unit :=
  is_open ← gets (fun fr => is_open_ (this fr));
  if (is_open : bool) then
    set_is_open_ false;;
    name ← gets (fun fr => name_ (this fr));
    cout_put on_io "Resource ";;
    cout_put on_io name;;
    cout_put on_io (" closed" +:+ nl);;
    if String.eqb name "failing" then
      throw (CustomResourceException_msg ("Failed to close resource " +:+ name))
    else mret tt
  else mret tt.

(** [~Resource()]; a destructor is [noexcept] unless declared otherwise. *)
Definition Resource_dtor : M Frame unit :=
  noexcept
    (try_catch close
       (fun e =>
          match e with
          | CustomResourceException _ _ =>
              Some (cerr_put on_io "Destructor caught exception: ";;
                    cerr_put on_io (what e);;
                    cerr_put on_io nl)
          | _ => None
          end)).

(** [Resource(Resource&& other) noexcept]: the new object, and what is
    left in [other]. *)
Definition Resource_move_ctor (other : Resource) : Resource * Resource :=
  let other1 := {| name_ := moved_from (name_ other);
                   is_open_ := is_open_ other |} in
  let new := {| name_ := name_ other; is_open_ := is_open_ other1 |} in
  (new, {| name_ := name_ other1; is_open_ := false |}).

(** The body of [operator=(Resource&& other)] under [this != &other]:
    the two objects afterwards, [*this] first. *)
Definition move_assign_body (self other : Resource) : Resource * Resource :=
  let self1 := {| name_ := name_ other; is_open_ := is_open_ self |} in
  let other1 := {| name_ := moved_from_assign (name_ self) (name_ other);
                   is_open_ := is_open_ other |} in
  let self2 := {| name_ := name_ self1; is_open_ := is_open_ other1 |} in
  (self2, {| name_ := name_ other1; is_open_ := false |}).

(** [void demonstrateNestedExceptions()] *)
Definition demonstrateNestedExceptions : M Console unit :=
  try_catch (throw (runtime_error "Original error"))
    (fun e => Some (throw (CustomResourceException_nested "Wrapper error" e))).

(** Part 5 of [main]: the handler that prints the error and the one
    nested in it. *)
Definition main_nested_exceptions : M Console unit :=
  try_catch demonstrateNestedExceptions
    (fun e =>
       match e with
       | CustomResourceException _ _ =>
           Some (cout_put id "Main error: ";;
                 cout_put id (what e);;
                 cout_put id nl;;
                 match nested e with
                 | Some n =>
                     cout_put id "Nested error: ";;
                     cout_put id (what n);;
                     cout_put id nl
                 | None => mret tt
                 end)
       | _ => None
       end).

End WithStdLib.

(** ** Several objects: the store *)

(** Objects are told apart by their address, which is what
    [this != &other] compares. *)
Definition addr : Type := nat.

Record World : Type := { objs : gmap addr Resource; console : Console }.

Definition empty_world : World :=
  {| objs := ∅; console := {| cout := ""; cerr := "" |} |}.

(** What a caller can do with resources. *)
Inductive op : Type :=
  | New (a : addr) (name : string)      (* Resource a(name);            *)
  | PerformOperation (a : addr)         (* a.performOperation();        *)
  | Close (a : addr)                    (* a.close();                   *)
  | MoveNew (a : addr) (src : addr)     (* Resource a(std::move(src));  *)
  | MoveAssign (dst : addr) (src : addr)(* dst = std::move(src);        *)
  | Delete (a : addr).                  (* a's lifetime ends            *)

(** A member function called on the object at [a]. *)
Definition call {A} (a : addr) (f : M Frame A) (w : World)
    : option (outcome A * World) :=
  match objs w !! a with
  | Some r =>
      let '(o, fr) := f {| this := r; io := console w |} in
      Some (o, {| objs := <[a := this fr]> (objs w); console := io fr |})
  | None => None
  end.

Section WithStdLib.
Context `{StdLib}.

(** One operation.  [None]: the operation has no defined behaviour
    (an object that is not alive is used, or storage that holds a live
    object is constructed over). *)
Definition step (o : op) (w : World) : option (outcome unit * World) :=
  match o with
  | New a name =>
      match objs w !! a with
      | None =>
          match Resource_ctor name (console w) with
          | (Returns r, c) =>
              Some (Returns tt, {| objs := <[a := r]> (objs w); console := c |})
          | (Throws e, c) => Some (Throws e, {| objs := objs w; console := c |})
          | (Terminates, c) => Some (Terminates, {| objs := objs w; console := c |})
          end
      | Some _ => None
      end
  | PerformOperation a => call a performOperation w
  | Close a => call a close w
  | MoveNew a src =>
      match objs w !! a, objs w !! src with
      | None, Some other =>
          let '(new, other') := Resource_move_ctor other in
          Some (Returns tt,
                {| objs := <[a := new]> (<[src := other']> (objs w));
                   console := console w |})
      | _, _ => None
      end
  | MoveAssign dst src =>
      match objs w !! dst, objs w !! src with
      | Some self, Some other =>
          if decide (dst ≠ src) then
            let '(self', other') := move_assign_body self other in
            Some (Returns tt,
                  {| objs := <[dst := self']> (<[src := other']> (objs w));
                     console := console w |})
          else Some (Returns tt, w)
      | _, _ => None
      end
  | Delete a =>
      match call a Resource_dtor w with
      | Some (o, w') =>
          Some (o, {| objs := delete a (objs w'); console := console w' |})
      | None => None
      end
  end.

(** A sequence of operations by a caller that handles each exception
    where it is thrown; [std::terminate] ends the run. *)
Fixpoint run (ops : list op) (w : World) : option World :=
  match ops with
  | [] => Some w
  | o :: rest =>
      match step o w with
      | Some (Terminates, w') => Some w'
      | Some (_, w') => run rest w'
      | None => None
      end
  end.

End WithStdLib.

(** ** The failures of [Resource], and what the console shows *)

(** [performOperation] on a closed resource. *)
Definition ResourceClosed (name : string) : exception :=
  CustomResourceException ("Resource " +:+ name +:+ " is closed") None.

(** [performOperation] on the resource named ["faulty"]. *)
Definition ResourceFaulty (name : string) : exception :=
  CustomResourceException ("Resource " +:+ name +:+ " is faulty") None.

(** [close] of the resource named ["failing"]. *)
Definition CloseFailed (name : string) : exception :=
  CustomResourceException ("Failed to close resource " +:+ name) None.

(** The console after [text] went to [std::cout]. *)
Definition printed (c : Console) (text : string) : Console :=
  {| cout := cout c +:+ text; cerr := cerr c |}.

(** The console after [text] went to [std::cerr]. *)
Definition diagnosed (c : Console) (text : string) : Console :=
  {| cout := cout c; cerr := cerr c +:+ text |}.

(** The object [r] once closed. *)
Definition closed (r : Resource) : Resource :=
  {| name_ := name_ r; is_open_ := false |}.

(** The claim that no sequence of constructions, operations, closes and
    moves ever takes an object of the program from closed to open. *)
Definition no_delete (o : op) : bool :=
  match o with Delete _ => false | _ => true end.

Definition state_only_closes `{StdLib} : Prop :=
  ∀ (setup ops : list op) (w w' : World) (a : addr) (r r' : Resource),
    run setup empty_world = Some w →
    forallb no_delete ops = true →
    run ops w = Some w' →
    objs w !! a = Some r → objs w' !! a = Some r' →
    is_open_ r = false → is_open_ r' = false.

(** What a move of the resource [r] from [src] to [dst] has to achieve,
    [w] being the world before and [w'] the world after: the destination
    holds [r], the source is closed, nothing was printed, the end of the
    source's lifetime does and prints nothing, and the end of the
    destination's lifetime does what that of [r] would have done. *)
Definition transferred `{StdLib}
    (w w' : World) (dst src : addr) (r : Resource) : Prop :=
  objs w' !! dst = Some r
  ∧ (∃ s, objs w' !! src = Some s ∧ is_open_ s = false)
  ∧ console w' = console w
  ∧ step (Delete src) w'
    = Some (Returns tt,
            {| objs := delete src (objs w'); console := console w |})
  ∧ step (Delete dst) w'
    = Some (let d := Resource_dtor {| this := r; io := console w |} in
            (fst d, {| objs := delete dst (objs w'); console := io (snd d) |})).

(** The operations that give the object at [a] another resource or end
    its lifetime. *)
Definition replaces (a : addr) (o : op) : bool :=
  match o with
  | MoveAssign dst src => bool_decide (dst = a) && negb (bool_decide (src = a))
  | Delete b => bool_decide (b = a)
  | _ => false
  end.

(** ** Programs that use resources *)

(** A piece of program over the store; [None] where it has no defined
    behaviour. *)
Definition Prog (A : Type) : Type := World -> option (outcome A * World).

Definition prog_ret {A} (a : A) : Prog A := fun w => Some (Returns a, w).

Definition prog_bind {A B} (m : Prog A) (k : A -> Prog B) : Prog B :=
  fun w =>
    match m w with
    | Some (Returns a, w') => k a w'
    | Some (Throws e, w') => Some (Throws e, w')
    | Some (Terminates, w') => Some (Terminates, w')
    | None => None
    end.

#[global] Instance Prog_ret : MRet Prog := fun _ a => prog_ret a.
#[global] Instance Prog_bind : MBind Prog := fun _ _ k m => prog_bind m k.

(** Code that only touches the console. *)
Definition on_console {A} (m : M Console A) : Prog A :=
  fun w =>
    let '(o, c) := m (console w) in
    Some (o, {| objs := objs w; console := c |}).

(** [try { body } catch ...] in a program; the clauses are tried in
    order by [handler], as in [try_catch]. *)
Definition prog_try_catch {A} (body : Prog A)
    (handler : exception -> option (Prog A)) : Prog A :=
  fun w =>
    match body w with
    | Some (Throws e, w') =>
        match handler e with
        | Some h => h w'
        | None => Some (Throws e, w')
        end
    | r => r
    end.

Section WithStdLib.
Context `{StdLib}.

(** [{ Resource a(name); body }], and as well
    [auto a = std::make_unique<Resource>(name); body] up to the end of
    the enclosing block: the object is constructed, [body] runs, and
    the object is destroyed when control leaves the block, by the end of
    [body] or by an exception passing through.  A constructor that
    throws leaves no object to destroy. *)
Definition scoped (a : addr) (name : string) (body : Prog unit) : Prog unit :=
  fun w =>
    match step (New a name) w with
    | Some (Returns _, w1) =>
        match body w1 with
        | Some (Terminates, w2) => Some (Terminates, w2)
        | Some (o, w2) =>
            match step (Delete a) w2 with
            | Some (Returns _, w3) => Some (o, w3)
            | Some (_, w3) => Some (Terminates, w3)
            | None => None
            end
        | None => None
        end
    | r => r
    end.

End WithStdLib.

(** ** divide *)

(** What [divide] uses of its type parameter [T]: the test [b == 0] and
    the quotient [a / b], which is [None] where the language defines no
    result. *)
Class Divisible (T : Type) : Type := {
  is_zero : T -> bool;
  quotient : T -> T -> option T
}.

(** [template<typename T> T divide(T a, T b) noexcept(false)] *)
Definition divide {T} `{Divisible T} (a b : T) : Prog T :=
  fun w =>
    if is_zero b then Some (Throws (invalid_argument "Division by zero"), w)
    else
      match quotient a b with
      | Some q => Some (Returns q, w)
      | None => None
      end.

(** [int], 32 bits wide: the values from [INT_MIN] to [INT_MAX].  [a / b]
    truncates toward zero; it is undefined for [b == 0] and where the
    quotient is not an [int], which is [INT_MIN / -1]. *)
Definition INT_MIN : Z := -2147483648.
Definition INT_MAX : Z := 2147483647.

Definition is_int (z : Z) : Prop := (INT_MIN ≤ z ≤ INT_MAX)%Z.

#[global] Instance int_Divisible : Divisible Z :=
  {| is_zero := fun b => (b =? 0)%Z;
     quotient := fun a b =>
       if ((b =? 0) || ((a =? INT_MIN) && (b =? -1)))%Z then None
       else Some (Z.quot a b) |}.

(** ** main *)

Section WithStdLib.
Context `{StdLib}.

(** [int main()].  The objects [resource], [r1], [r2] and [r3] are at
    the addresses 0, 1, 2 and 3. *)
Definition main : Prog Z :=
  prog_try_catch
    ((* 1. Basic try-catch with smart pointer *)
     on_console (cout_put id (nl +:+ "1. Smart Pointer Example:" +:+ nl));;
     scoped 0 "basic"
       (step (PerformOperation 0);;
        (* 2. Multiple catch blocks *)
        on_console (cout_put id (nl +:+ "2. Multiple Catch Blocks:" +:+ nl));;
        prog_try_catch
          (on_console (throw (runtime_error "Runtime error")))
          (fun e =>
             match e with
             | invalid_argument _ =>
                 Some (on_console
                         (cout_put id "Caught invalid argument: ";;
                          cout_put id (what e);;
                          cout_put id nl))
             | _ =>
                 Some (on_console
                         (cout_put id "Caught exception: ";;
                          cout_put id (what e);;
                          cout_put id nl))
             end);;
        (* 3. RAII and scope-based resource management *)
        on_console (cout_put id (nl +:+ "3. RAII Example:" +:+ nl));;
        scoped 1 "r1" (step (PerformOperation 1));;
        (* 4. Exception specification and templates *)
        on_console (cout_put id (nl +:+ "4. Exception Specification:" +:+ nl));;
        prog_try_catch
          (result ← divide 10%Z 0%Z; mret tt)
          (fun e =>
             match e with
             | invalid_argument _ =>
                 Some (on_console
                         (cout_put id "Division error: ";;
                          cout_put id (what e);;
                          cout_put id nl))
             | _ => None
             end);;
        (* 5. Nested exceptions *)
        on_console (cout_put id (nl +:+ "5. Nested Exceptions:" +:+ nl));;
        on_console main_nested_exceptions;;
        (* 6. Multiple resources and exceptions *)
        on_console (cout_put id (nl +:+ "6. Multiple Resources:" +:+ nl));;
        prog_try_catch
          (scoped 2 "faulty"
             (scoped 3 "failing"
                (step (PerformOperation 2);;
                 step (PerformOperation 3))))
          (fun e =>
             match e with
             | CustomResourceException _ _ =>
                 Some (on_console
                         (cout_put id "Resource error: ";;
                          cout_put id (what e);;
                          cout_put id nl))
             | _ => None
             end)))
    (fun e =>
       Some (on_console
               (cout_put id "Top-level catch: ";;
                cout_put id (what e);;
                cout_put id nl)));;
  mret 0%Z.

End WithStdLib.

(** ** The lines the class prints *)

Definition opened_line (name : string) : string :=
  "Resource " +:+ name +:+ " opened" +:+ nl.

Definition performed_line (name : string) : string :=
  "Operation performed on resource " +:+ name +:+ nl.

Definition closed_line (name : string) : string :=
  "Resource " +:+ name +:+ " closed" +:+ nl.

(** What the destructor writes to [std::cerr] when [close] failed. *)
Definition caught_line (name : string) : string :=
  "Destructor caught exception: "
  +:+ ("Failed to close resource " +:+ name) +:+ nl.

(** The store just after [Resource a(name);]. *)
Definition constructed (a : addr) (name : string) (w : World) : World :=
  {| objs := <[a := {| name_ := name; is_open_ := true |}]> (objs w);
     console := printed (console w) (opened_line name) |}.

(** The console after the destructor of [r] ran. *)
Definition destroyed `{StdLib} (r : Resource) (c : Console) : Console :=
  io (snd (Resource_dtor {| this := r; io := c |})).

(** ** The uses of one resource *)

(** What a caller does with a resource between its construction and the
    end of its lifetime. *)
Inductive use : Type :=
  | Operate       (* a.performOperation(); *)
  | CloseNow.     (* a.close();            *)

Definition use_op (a : addr) (u : use) : op :=
  match u with
  | Operate => PerformOperation a
  | CloseNow => Close a
  end.

(** How many operations come before the first [close]. *)
Fixpoint operations_while_open (us : list use) : nat :=
  match us with
  | Operate :: rest => S (operations_while_open rest)
  | _ => 0
  end.

Definition closes_explicitly (us : list use) : bool :=
  existsb (fun u => match u with CloseNow => true | Operate => false end) us.

(** [n] copies of a line. *)
Fixpoint lines (n : nat) (line : string) : string :=
  match n with
  | O => ""
  | S k => line +:+ lines k line
  end.

(** ** Sample worlds and runs *)

Definition quiet : Console := {| cout := ""; cerr := "" |}.

(** One open resource, at address 1. *)
Definition one_open : World :=
  {| objs := {[ 1 := {| name_ := "b"; is_open_ := true |} ]};
     console := quiet |}.

(** A closed resource at address 0 and an open one at address 1. *)
Definition closed_and_open : World :=
  {| objs := <[ 0 := {| name_ := "a"; is_open_ := false |} ]>
               {[ 1 := {| name_ := "b"; is_open_ := true |} ]};
     console := quiet |}.

(** A run that uses the closed object at 0 in every way but as the
    destination of a move assignment. *)
Definition sample_ops : list op :=
  [PerformOperation 0; Close 0; MoveAssign 1 0; MoveAssign 0 0;
   MoveNew 2 0; New 3 "c"; Delete 1].

(** * Properties *)

(** ** Strings and records *)

Lemma append_assoc (s t u : string) : (s +:+ t) +:+ u = s +:+ t +:+ u.
Proof.
  induction s as [|ch s IH]; [done |].
  cbv [String.append] in *; fold String.append in *. by f_equal.
Qed.

Lemma Resource_eta (r : Resource) :
  {| name_ := name_ r; is_open_ := is_open_ r |} = r.
Proof. by destruct r. Qed.

(** ** The member functions, path by path *)

(** Runs the monadic plumbing of a member function on its frame. *)
Ltac exec :=
  cbv [mbind mret M_bind M_ret bind ret gets modify throw try_catch noexcept
       cout_put cerr_put on_io set_is_open_ id CustomResourceException_msg];
  simpl.

Lemma performOperation_closed (r : Resource) (c : Console) :
  is_open_ r = false →
  performOperation {| this := r; io := c |}
  = (Throws (ResourceClosed (name_ r)), {| this := r; io := c |}).
Proof.
  intros Hc. destruct r as [name is_open]; simpl in Hc; subst is_open.
  reflexivity.
Qed.

Lemma performOperation_open (r : Resource) (c : Console) :
  is_open_ r = true →
  performOperation {| this := r; io := c |}
  = if String.eqb (name_ r) "faulty"
    then (Throws (ResourceFaulty (name_ r)), {| this := r; io := c |})
    else (Returns tt,
          {| this := r;
             io := printed c ("Operation performed on resource "
                              +:+ name_ r +:+ nl) |}).
Proof.
  intros Ho. destruct r as [name is_open]; simpl in Ho; subst is_open.
  unfold performOperation, printed; exec.
  destruct (String.eqb name "faulty"); [done |].
  by rewrite !append_assoc.
Qed.

Lemma close_closed (r : Resource) (c : Console) :
  is_open_ r = false →
  close {| this := r; io := c |} = (Returns tt, {| this := r; io := c |}).
Proof.
  intros Hc. destruct r as [name is_open]; simpl in Hc; subst is_open.
  reflexivity.
Qed.

Lemma close_open (r : Resource) (c : Console) :
  is_open_ r = true →
  close {| this := r; io := c |}
  = (if String.eqb (name_ r) "failing"
     then Throws (CloseFailed (name_ r)) else Returns tt,
     {| this := closed r;
        io := printed c ("Resource " +:+ name_ r +:+ " closed" +:+ nl) |}).
Proof.
  intros Ho. destruct r as [name is_open]; simpl in Ho; subst is_open.
  unfold close, printed, closed; exec. rewrite !append_assoc.
  by destruct (String.eqb name "failing").
Qed.

Lemma Resource_dtor_closed (r : Resource) (c : Console) :
  is_open_ r = false →
  Resource_dtor {| this := r; io := c |}
  = (Returns tt, {| this := r; io := c |}).
Proof.
  intros Hc. unfold Resource_dtor, noexcept, try_catch.
  by rewrite close_closed.
Qed.

Lemma Resource_dtor_open (r : Resource) (c : Console) :
  is_open_ r = true →
  Resource_dtor {| this := r; io := c |}
  = (Returns tt,
     {| this := closed r;
        io := let c' := printed c ("Resource " +:+ name_ r
                                   +:+ " closed" +:+ nl) in
              if String.eqb (name_ r) "failing"
              then diagnosed c' ("Destructor caught exception: "
                                 +:+ what (CloseFailed (name_ r)) +:+ nl)
              else c' |}).
Proof.
  intros Ho. unfold Resource_dtor, noexcept, try_catch.
  rewrite close_open by done.
  destruct (String.eqb (name_ r) "failing"); [|done].
  unfold CloseFailed, diagnosed; exec.
  by rewrite !append_assoc.
Qed.

(** ** The cause kept by a wrapping exception *)

Lemma nested_what (lib : StdLib) (message : string) (cause : exception) :
  what <$> nested (CustomResourceException_nested message cause)
  = Some (sliced_what (what cause)).
Proof. reflexivity. Qed.

(** With a library whose [std::exception] stores the message, the copy
    keeps it and the cause's message is read back. *)
Lemma nested_what_msvc (message : string) (cause : exception) :
  what <$> nested (@CustomResourceException_nested msvc_stl message cause)
  = Some (what cause).
Proof. reflexivity. Qed.

(** C1.  What the code does where the claim expects the cause's message
    back: the two-argument constructor keeps a [std::exception] copied
    from the cause, so [nested()->what()] is whatever the library's
    [std::exception] answers after that copy, for every message [m] of
    the cause.  With libstdc++ or libc++ that is ["std::exception"]:
    wrapping ["Original error"] inside ["Wrapper error"] and reading the
    nested message does not give ["Original error"] back, and part 5 of
    [main] prints ["Nested error: std::exception"]. *)
Theorem nested_cause_message_is_sliced :
  (∀ (lib : StdLib) (message m : string),
     what <$> nested (CustomResourceException_nested message (runtime_error m))
     = Some (sliced_what m))
  ∧ what <$> nested (@CustomResourceException_nested libstdcxx
                       "Wrapper error" (runtime_error "Original error"))
    = Some "std::exception"
  ∧ what <$> nested (@CustomResourceException_nested libstdcxx
                       "Wrapper error" (runtime_error "Original error"))
    ≠ Some "Original error"
  ∧ @main_nested_exceptions libstdcxx {| cout := ""; cerr := "" |}
    = (Returns tt,
       {| cout := "Main error: Wrapper error" +:+ nl
                  +:+ "Nested error: std::exception" +:+ nl;
          cerr := "" |}).
Proof.
  split; [intros; apply nested_what |].
  split; [reflexivity |]. split; [discriminate | reflexivity].
Qed.

(** ** close and the destructor *)

(** C2.  The destructor of a resource that is still open returns
    normally, whatever the name: it neither throws nor terminates.  It
    leaves the resource closed and adds exactly the one line
    ["Resource <name> closed"] to [std::cout].  When the name is
    ["failing"], the [CloseFailed] that [close] throws is caught there and
    its message goes to [std::cerr] and nowhere else; for any other name
    [std::cerr] is untouched. *)
Theorem dtor_closes_once_and_absorbs_failure (r : Resource) (c : Console) :
  is_open_ r = true →
  ∃ fr : Frame,
    Resource_dtor {| this := r; io := c |} = (Returns tt, fr)
    ∧ this fr = closed r
    ∧ cout (io fr)
      = cout c +:+ "Resource " +:+ name_ r +:+ " closed" +:+ nl
    ∧ (name_ r = "failing" →
       fst (close {| this := r; io := c |}) = Throws (CloseFailed "failing")
       ∧ cerr (io fr)
         = cerr c +:+ "Destructor caught exception: "
           +:+ "Failed to close resource failing" +:+ nl)
    ∧ (name_ r ≠ "failing" → cerr (io fr) = cerr c).
Proof.
  intros Ho. eexists. split; [by apply Resource_dtor_open |].
  rewrite close_open by done. simpl.
  destruct (String.eqb_spec (name_ r) "failing") as [Hn | Hn].
  - rewrite Hn. by repeat split.
  - by repeat split.
Qed.

Lemma dtor_closes_once_and_absorbs_failure_witness :
  ∃ fr : Frame,
    Resource_dtor {| this := {| name_ := "failing"; is_open_ := true |};
                     io := {| cout := ""; cerr := "" |} |}
    = (Returns tt, fr)
    ∧ this fr = closed {| name_ := "failing"; is_open_ := true |}
    ∧ cout (io fr) = "" +:+ "Resource " +:+ "failing" +:+ " closed" +:+ nl
    ∧ ("failing" = "failing" →
       fst (close {| this := {| name_ := "failing"; is_open_ := true |};
                     io := {| cout := ""; cerr := "" |} |})
       = Throws (CloseFailed "failing")
       ∧ cerr (io fr)
         = "" +:+ "Destructor caught exception: "
           +:+ "Failed to close resource failing" +:+ nl)
    ∧ ("failing" ≠ "failing" → cerr (io fr) = "").
Proof.
  apply (dtor_closes_once_and_absorbs_failure
           {| name_ := "failing"; is_open_ := true |}
           {| cout := ""; cerr := "" |}).
  reflexivity.
Defined.

(** C3.  [close] on an open resource always leaves it closed and always
    prints the line ["Resource <name> closed"]; both are already in the
    state in which the call ends, also when it ends by a throw.  The
    resource named ["failing"] then throws [CloseFailed]; a resource with
    any other name returns normally. *)
Theorem close_open_always_closes (r : Resource) (c : Console) :
  is_open_ r = true →
  ∃ o : outcome unit,
    close {| this := r; io := c |}
    = (o, {| this := closed r;
             io := printed c ("Resource " +:+ name_ r +:+ " closed" +:+ nl) |})
    ∧ is_open_ (closed r) = false
    ∧ (name_ r = "failing" → o = Throws (CloseFailed "failing"))
    ∧ (name_ r ≠ "failing" → o = Returns tt).
Proof.
  intros Ho. eexists. split; [by apply close_open |]. split; [done |].
  destruct (String.eqb_spec (name_ r) "failing") as [Hn | Hn].
  - rewrite Hn. by split.
  - by split.
Qed.

Lemma close_open_always_closes_witness :
  ∃ o : outcome unit,
    close {| this := {| name_ := "failing"; is_open_ := true |};
             io := {| cout := ""; cerr := "" |} |}
    = (o, {| this := closed {| name_ := "failing"; is_open_ := true |};
             io := printed {| cout := ""; cerr := "" |}
                     ("Resource " +:+ "failing" +:+ " closed" +:+ nl) |})
    ∧ is_open_ (closed {| name_ := "failing"; is_open_ := true |}) = false
    ∧ ("failing" = "failing" → o = Throws (CloseFailed "failing"))
    ∧ ("failing" ≠ "failing" → o = Returns tt).
Proof.
  apply (close_open_always_closes
           {| name_ := "failing"; is_open_ := true |}
           {| cout := ""; cerr := "" |}).
  reflexivity.
Defined.

(** C4.  [close] on a closed resource does nothing: it returns normally,
    also for the name ["failing"], and leaves the resource and the
    console as they were.  Hence whatever a first [close] did, on an open
    or a closed resource, a second [close] right after it changes
    nothing and does not fail. *)
Theorem close_idempotent (r : Resource) (c : Console) :
  is_open_ r = false →
  close {| this := r; io := c |} = (Returns tt, {| this := r; io := c |})
  ∧ ∀ (r0 : Resource) (c0 : Console),
      let after := snd (close {| this := r0; io := c0 |}) in
      is_open_ (this after) = false
      ∧ ∀ n : nat,
          close (Nat.iter n (λ fr, snd (close fr)) after)
          = (Returns tt, after).
Proof.
  intros Hc. split; [by apply close_closed |].
  intros r0 c0 after.
  assert (Hafter : is_open_ (this after) = false).
  { subst after. destruct (is_open_ r0) eqn:Ho.
    - by rewrite close_open.
    - by rewrite close_closed. }
  split; [done |].
  assert (Hfix : close after = (Returns tt, after)).
  { destruct after as [r1 c1]. by apply close_closed. }
  intros n. induction n as [|n IH]; [done |].
  simpl. by rewrite IH.
Qed.

Lemma close_idempotent_witness :
  close {| this := {| name_ := "failing"; is_open_ := false |};
           io := {| cout := ""; cerr := "" |} |}
  = (Returns tt, {| this := {| name_ := "failing"; is_open_ := false |};
                    io := {| cout := ""; cerr := "" |} |})
  ∧ ∀ (r0 : Resource) (c0 : Console),
      let after := snd (close {| this := r0; io := c0 |}) in
      is_open_ (this after) = false
      ∧ ∀ n : nat,
          close (Nat.iter n (λ fr, snd (close fr)) after)
          = (Returns tt, after).
Proof.
  apply (close_idempotent {| name_ := "failing"; is_open_ := false |}
           {| cout := ""; cerr := "" |}).
  reflexivity.
Defined.

(** ** performOperation *)

(** C5.  On a closed resource [performOperation] throws [ResourceClosed],
    whatever the name, and changes nothing. *)
Theorem performOperation_closed_fails (r : Resource) (c : Console) :
  is_open_ r = false →
  performOperation {| this := r; io := c |}
  = (Throws (ResourceClosed (name_ r)), {| this := r; io := c |}).
Proof. apply performOperation_closed. Qed.

Lemma performOperation_closed_fails_witness :
  performOperation {| this := {| name_ := "faulty"; is_open_ := false |};
                      io := {| cout := ""; cerr := "" |} |}
  = (Throws (ResourceClosed "faulty"),
     {| this := {| name_ := "faulty"; is_open_ := false |};
        io := {| cout := ""; cerr := "" |} |}).
Proof.
  apply (performOperation_closed_fails
           {| name_ := "faulty"; is_open_ := false |}
           {| cout := ""; cerr := "" |}).
  reflexivity.
Defined.

(** C6.  On an open resource named ["faulty"], [performOperation] throws
    [ResourceFaulty] and changes nothing.  On an open resource with any
    other name it returns normally, prints the one line
    ["Operation performed on resource <name>"] on [std::cout], and leaves
    the resource (name and state) and [std::cerr] as they were. *)
Theorem performOperation_open_faulty_or_succeeds (r : Resource) (c : Console) :
  is_open_ r = true →
  (name_ r = "faulty" →
   performOperation {| this := r; io := c |}
   = (Throws (ResourceFaulty "faulty"), {| this := r; io := c |}))
  ∧ (name_ r ≠ "faulty" →
     performOperation {| this := r; io := c |}
     = (Returns tt,
        {| this := r;
           io := {| cout := cout c +:+ "Operation performed on resource "
                            +:+ name_ r +:+ nl;
                    cerr := cerr c |} |})).
Proof.
  intros Ho. rewrite performOperation_open by done.
  destruct (String.eqb_spec (name_ r) "faulty") as [Hn | Hn].
  - rewrite Hn. by split.
  - by split.
Qed.

Lemma performOperation_open_faulty_or_succeeds_witness :
  ("faulty" = "faulty" →
   performOperation {| this := {| name_ := "faulty"; is_open_ := true |};
                       io := {| cout := ""; cerr := "" |} |}
   = (Throws (ResourceFaulty "faulty"),
      {| this := {| name_ := "faulty"; is_open_ := true |};
         io := {| cout := ""; cerr := "" |} |}))
  ∧ ("faulty" ≠ "faulty" →
     performOperation {| this := {| name_ := "faulty"; is_open_ := true |};
                         io := {| cout := ""; cerr := "" |} |}
     = (Returns tt,
        {| this := {| name_ := "faulty"; is_open_ := true |};
           io := {| cout := "" +:+ "Operation performed on resource "
                            +:+ "faulty" +:+ nl;
                    cerr := "" |} |})).
Proof.
  apply (performOperation_open_faulty_or_succeeds
           {| name_ := "faulty"; is_open_ := true |}
           {| cout := ""; cerr := "" |}).
  reflexivity.
Defined.

(** C10.  [performOperation] never changes the resource: on each of its
    three paths (normal return, [ResourceClosed], [ResourceFaulty]) the
    name and the open flag after the call are those before it. *)
Theorem performOperation_keeps_resource (fr : Frame) :
  this (snd (performOperation fr)) = this fr
  ∧ (fst (performOperation fr) = Returns tt
     ∨ fst (performOperation fr) = Throws (ResourceClosed (name_ (this fr)))
     ∨ fst (performOperation fr) = Throws (ResourceFaulty (name_ (this fr)))).
Proof.
  destruct fr as [r c]. destruct (is_open_ r) eqn:Ho.
  - rewrite performOperation_open by done.
    destruct (String.eqb (name_ r) "faulty"); simpl; auto.
  - rewrite performOperation_closed by done. simpl; auto.
Qed.

(** ** Operations on the store *)

Section Store.
Context `{StdLib}.
Implicit Types (w : World) (a dst src : addr) (r s : Resource).

Lemma call_eq {A} a (f : M Frame A) w r :
  objs w !! a = Some r →
  call a f w
  = Some (let res := f {| this := r; io := console w |} in
          (fst res, {| objs := <[a := this (snd res)]> (objs w);
                       console := io (snd res) |})).
Proof.
  intros Ha. unfold call. rewrite Ha.
  by destruct (f {| this := r; io := console w |}).
Qed.

Lemma step_PerformOperation_closed w a s :
  objs w !! a = Some s → is_open_ s = false →
  step (PerformOperation a) w = Some (Throws (ResourceClosed (name_ s)), w).
Proof.
  intros Ha Hc. simpl. rewrite (call_eq _ _ _ _ Ha).
  rewrite performOperation_closed by done. simpl.
  rewrite insert_id by done. by destruct w.
Qed.

Lemma step_Delete w a r :
  objs w !! a = Some r →
  step (Delete a) w
  = Some (let d := Resource_dtor {| this := r; io := console w |} in
          (fst d, {| objs := delete a (objs w); console := io (snd d) |})).
Proof.
  intros Ha. simpl. rewrite (call_eq _ _ _ _ Ha). simpl.
  by rewrite delete_insert_eq.
Qed.

Lemma step_Delete_closed w a s :
  objs w !! a = Some s → is_open_ s = false →
  step (Delete a) w
  = Some (Returns tt, {| objs := delete a (objs w); console := console w |}).
Proof.
  intros Ha Hc. rewrite (step_Delete _ _ _ Ha).
  by rewrite Resource_dtor_closed.
Qed.

Lemma step_MoveNew w dst src r :
  objs w !! src = Some r → objs w !! dst = None →
  step (MoveNew dst src) w
  = Some (Returns tt,
          {| objs := <[dst := r]>
                       (<[src := {| name_ := moved_from (name_ r);
                                    is_open_ := false |}]> (objs w));
             console := console w |}).
Proof.
  intros Hs Hd. simpl. rewrite Hd, Hs. simpl. by rewrite Resource_eta.
Qed.

Lemma step_MoveAssign w dst src self r :
  objs w !! dst = Some self → objs w !! src = Some r → dst ≠ src →
  step (MoveAssign dst src) w
  = Some (Returns tt,
          {| objs := <[dst := r]>
                       (<[src := {| name_ := moved_from_assign
                                               (name_ self) (name_ r);
                                    is_open_ := false |}]> (objs w));
             console := console w |}).
Proof.
  intros Hd Hs Hne. simpl. rewrite Hd, Hs.
  rewrite decide_True by done. simpl. by rewrite Resource_eta.
Qed.

Lemma step_MoveAssign_self w a r :
  objs w !! a = Some r →
  step (MoveAssign a a) w = Some (Returns tt, w).
Proof.
  intros Ha. simpl. rewrite Ha. by rewrite decide_False by auto.
Qed.

(** After [src] gave its resource [r] to [dst], whatever is left in
    [src] as its name. *)
Lemma moved_is_transferred w dst src r (left : string) :
  dst ≠ src →
  transferred w
    {| objs := <[dst := r]>
                 (<[src := {| name_ := left; is_open_ := false |}]> (objs w));
       console := console w |}
    dst src r.
Proof.
  intros Hne.
  set (w' := {| objs := <[dst := r]>
                          (<[src := {| name_ := left; is_open_ := false |}]>
                             (objs w));
                console := console w |}).
  assert (Hd : objs w' !! dst = Some r) by apply lookup_insert_eq.
  assert (Hs : objs w' !! src = Some {| name_ := left; is_open_ := false |}).
  { simpl. rewrite lookup_insert_ne by done. apply lookup_insert_eq. }
  unfold transferred.
  split; [done |]. split; [eauto |]. split; [done |]. split.
  - by rewrite (step_Delete_closed w' src _ Hs).
  - by rewrite (step_Delete w' dst _ Hd).
Qed.

(** ** Moves *)

(** C7.  A move hands the resource over.  Let [src] hold the resource
    [r] and [dst] be another object.  After [Resource dst(std::move(src))]
    (with [dst] not yet alive) and after [dst = std::move(src)] (with
    [dst] alive), the destination holds the name and the open flag that
    [src] had, the source is closed, and nothing was printed; the end of
    the source's lifetime then closes nothing and prints nothing, and the
    end of the destination's lifetime does exactly what the end of [r]'s
    would have done, so the automatic close of [r] can only come from
    [dst]. *)
Theorem move_transfers_ownership w dst src r :
  objs w !! src = Some r → dst ≠ src →
  (objs w !! dst = None →
   ∃ w', step (MoveNew dst src) w = Some (Returns tt, w')
         ∧ transferred w w' dst src r)
  ∧ (is_Some (objs w !! dst) →
     ∃ w', step (MoveAssign dst src) w = Some (Returns tt, w')
           ∧ transferred w w' dst src r).
Proof.
  intros Hs Hne. split.
  - intros Hd. eexists. split; [by apply step_MoveNew |].
    by apply moved_is_transferred.
  - intros [self Hd]. eexists. split; [by eapply step_MoveAssign |].
    by apply moved_is_transferred.
Qed.

(** C9.  An object that was the source of a move (to another object, by
    the move constructor or by move assignment) is closed, and
    [performOperation] on it throws [ResourceClosed] ("Resource ... is
    closed", with the name the move left in it) and changes nothing.
    That is the failure of a resource closed by [close]. *)
Theorem moved_from_source_fails_as_closed w dst src r :
  objs w !! src = Some r → dst ≠ src →
  (objs w !! dst = None →
   ∃ w' s, step (MoveNew dst src) w = Some (Returns tt, w')
           ∧ objs w' !! src = Some s ∧ is_open_ s = false
           ∧ step (PerformOperation src) w'
             = Some (Throws (ResourceClosed (name_ s)), w'))
  ∧ (is_Some (objs w !! dst) →
     ∃ w' s, step (MoveAssign dst src) w = Some (Returns tt, w')
             ∧ objs w' !! src = Some s ∧ is_open_ s = false
             ∧ step (PerformOperation src) w'
               = Some (Throws (ResourceClosed (name_ s)), w'))
  ∧ (∀ (r0 : Resource) (c : Console),
       fst (performOperation (snd (close {| this := r0; io := c |})))
       = Throws (ResourceClosed (name_ r0))).
Proof.
  intros Hs Hne.
  assert (Hleft : ∀ left : string,
            let s := {| name_ := left; is_open_ := false |} in
            let w' := {| objs := <[dst := r]> (<[src := s]> (objs w));
                         console := console w |} in
            objs w' !! src = Some s ∧ is_open_ s = false
            ∧ step (PerformOperation src) w'
              = Some (Throws (ResourceClosed (name_ s)), w')).
  { intros left s w'.
    assert (Hs' : objs w' !! src = Some s).
    { simpl. rewrite lookup_insert_ne by done. apply lookup_insert_eq. }
    split; [done |]. split; [done |].
    by apply step_PerformOperation_closed. }
  split; [| split].
  - intros Hd. eexists _, _. split; [by apply step_MoveNew |]. apply Hleft.
  - intros [self Hd]. eexists _, _.
    split; [by eapply step_MoveAssign |]. apply Hleft.
  - intros r0 c. destruct (is_open_ r0) eqn:Ho.
    + rewrite close_open by done. cbn [snd].
      by rewrite performOperation_closed.
    + rewrite close_closed by done. cbn [snd].
      by rewrite performOperation_closed.
Qed.

End Store.

(** ** The open flag along a run *)

Section Run.
Context `{StdLib}.
Implicit Types (w : World) (a dst src : addr) (r s : Resource).

(** A member function that keeps closed objects closed, called on any
    object, keeps the object at [a] closed. *)
Lemma call_keeps_closed {A} (f : M Frame A) b w out w1 a r :
  (∀ fr, is_open_ (this fr) = false → is_open_ (this (snd (f fr))) = false) →
  call b f w = Some (out, w1) →
  objs w !! a = Some r → is_open_ r = false →
  ∃ r1, objs w1 !! a = Some r1 ∧ is_open_ r1 = false.
Proof.
  intros Hf Hcall Ha Hc. unfold call in Hcall.
  destruct (objs w !! b) as [rb|] eqn:Hb; [| discriminate].
  specialize (Hf {| this := rb; io := console w |}).
  destruct (f {| this := rb; io := console w |}) as [o fr].
  injection Hcall as _ <-. simpl in *.
  destruct (decide (b = a)) as [-> | Hne].
  - rewrite lookup_insert_eq. eexists; split; [done |].
    apply Hf. congruence.
  - rewrite lookup_insert_ne by done. eauto.
Qed.

Lemma performOperation_stays_closed (fr : Frame) :
  is_open_ (this fr) = false →
  is_open_ (this (snd (performOperation fr))) = false.
Proof.
  intros Hc. destruct fr as [r c]. by rewrite performOperation_closed.
Qed.

Lemma close_stays_closed (fr : Frame) :
  is_open_ (this fr) = false → is_open_ (this (snd (close fr))) = false.
Proof. intros Hc. destruct fr as [r c]. by rewrite close_closed. Qed.

Lemma Resource_dtor_stays_closed (fr : Frame) :
  is_open_ (this fr) = false →
  is_open_ (this (snd (Resource_dtor fr))) = false.
Proof. intros Hc. destruct fr as [r c]. by rewrite Resource_dtor_closed. Qed.

Lemma step_keeps_closed (o : op) w out w1 a r :
  step o w = Some (out, w1) → replaces a o = false →
  objs w !! a = Some r → is_open_ r = false →
  ∃ r1, objs w1 !! a = Some r1 ∧ is_open_ r1 = false.
Proof.
  intros Hstep Hrep Ha Hc. destruct o as [b name | b | b | b src | dst src | b].
  - simpl in Hstep. destruct (objs w !! b) eqn:Hb; [discriminate |].
    injection Hstep as _ <-. simpl.
    rewrite lookup_insert_ne by congruence. eauto.
  - by eapply call_keeps_closed;
      [apply performOperation_stays_closed | apply Hstep | |].
  - by eapply call_keeps_closed; [apply close_stays_closed | apply Hstep | |].
  - simpl in Hstep. destruct (objs w !! b) eqn:Hb; [discriminate |].
    destruct (objs w !! src) as [other|] eqn:Hsrc; [| discriminate].
    injection Hstep as _ <-. simpl.
    rewrite lookup_insert_ne by congruence.
    destruct (decide (src = a)) as [-> | Hne].
    + rewrite lookup_insert_eq. eauto.
    + rewrite lookup_insert_ne by done. eauto.
  - simpl in Hstep, Hrep.
    destruct (objs w !! dst) as [self|] eqn:Hdst; [| discriminate].
    destruct (objs w !! src) as [other|] eqn:Hsrc; [| discriminate].
    destruct (decide (dst ≠ src)) as [Hne | Heq].
    + injection Hstep as _ <-. simpl.
      destruct (decide (src = a)) as [-> | Hsa].
      * rewrite lookup_insert_ne by done. rewrite lookup_insert_eq. eauto.
      * rewrite (bool_decide_eq_false_2 (src = a)) in Hrep by done.
        simpl in Hrep. rewrite andb_true_r in Hrep. apply bool_decide_eq_false_1 in Hrep.
        rewrite !lookup_insert_ne by done. eauto.
    + injection Hstep as _ <-. eauto.
  - simpl in Hstep, Hrep. apply bool_decide_eq_false_1 in Hrep.
    destruct (call b Resource_dtor w) as [[o w2]|] eqn:Hcall; [| discriminate].
    injection Hstep as _ <-. simpl.
    rewrite lookup_delete_ne by done.
    by eapply call_keeps_closed;
      [apply Resource_dtor_stays_closed | apply Hcall | |].
Qed.

Lemma run_keeps_closed (ops : list op) w w' a r :
  forallb (λ o, negb (replaces a o)) ops = true →
  run ops w = Some w' →
  objs w !! a = Some r → is_open_ r = false →
  ∃ r', objs w' !! a = Some r' ∧ is_open_ r' = false.
Proof.
  revert w r. induction ops as [|o rest IH]; intros w r Hops Hrun Ha Hc.
  - injection Hrun as <-. eauto.
  - simpl in Hops. apply andb_true_iff in Hops as [Ho Hrest].
    apply negb_true_iff in Ho. simpl in Hrun.
    destruct (step o w) as [[out w1]|] eqn:Hstep; [| discriminate].
    destruct (step_keeps_closed _ _ _ _ _ _ Hstep Ho Ha Hc) as (r1 & Ha1 & Hc1).
    destruct out; [by eapply IH | by eapply IH |].
    injection Hrun as <-. eauto.
Qed.

(** C8, as the code has it.  Along every run (constructions,
    [performOperation], [close], moves, ends of lifetime, from any
    world), an object that is closed stays closed, as long as the run
    neither move-assigns another object into it nor ends its lifetime.
    Move assignment is the exception: it gives its destination the open
    flag of the source. *)
Theorem closed_stays_closed_unless_assigned (ops : list op) w w' a r :
  forallb (λ o, negb (replaces a o)) ops = true →
  run ops w = Some w' →
  objs w !! a = Some r → is_open_ r = false →
  (∃ r', objs w' !! a = Some r' ∧ is_open_ r' = false)
  ∧ (∀ src other,
       src ≠ a → objs w' !! src = Some other →
       ∃ w1, step (MoveAssign a src) w' = Some (Returns tt, w1)
             ∧ objs w1 !! a = Some other).
Proof.
  intros Hops Hrun Ha Hc.
  destruct (run_keeps_closed _ _ _ _ _ Hops Hrun Ha Hc) as (r' & Ha' & Hc').
  split; [eauto |].
  intros src other Hne Hsrc. eexists.
  split; [by eapply step_MoveAssign |].
  simpl. apply lookup_insert_eq.
Qed.

End Run.

(** ** Concrete runs *)

Lemma move_transfers_ownership_witness :
  (objs one_open !! 0 = None →
   ∃ w', @step libstdcxx (MoveNew 0 1) one_open = Some (Returns tt, w')
         ∧ @transferred libstdcxx one_open w' 0 1
             {| name_ := "b"; is_open_ := true |})
  ∧ (is_Some (objs one_open !! 0) →
     ∃ w', @step libstdcxx (MoveAssign 0 1) one_open = Some (Returns tt, w')
           ∧ @transferred libstdcxx one_open w' 0 1
               {| name_ := "b"; is_open_ := true |}).
Proof.
  apply (@move_transfers_ownership libstdcxx one_open 0 1
           {| name_ := "b"; is_open_ := true |}).
  - reflexivity.
  - discriminate.
Defined.

Lemma moved_from_source_fails_as_closed_witness :
  (objs closed_and_open !! 0 = None →
   ∃ w' s, @step libstdcxx (MoveNew 0 1) closed_and_open
           = Some (Returns tt, w')
           ∧ objs w' !! 1 = Some s ∧ is_open_ s = false
           ∧ @step libstdcxx (PerformOperation 1) w'
             = Some (Throws (ResourceClosed (name_ s)), w'))
  ∧ (is_Some (objs closed_and_open !! 0) →
     ∃ w' s, @step libstdcxx (MoveAssign 0 1) closed_and_open
             = Some (Returns tt, w')
             ∧ objs w' !! 1 = Some s ∧ is_open_ s = false
             ∧ @step libstdcxx (PerformOperation 1) w'
               = Some (Throws (ResourceClosed (name_ s)), w'))
  ∧ (∀ (r0 : Resource) (c : Console),
       fst (performOperation (snd (close {| this := r0; io := c |})))
       = Throws (ResourceClosed (name_ r0))).
Proof.
  apply (@moved_from_source_fails_as_closed libstdcxx closed_and_open 0 1
           {| name_ := "b"; is_open_ := true |}).
  - reflexivity.
  - discriminate.
Defined.

Lemma closed_stays_closed_unless_assigned_witness :
  (∃ r', objs (default empty_world (@run libstdcxx sample_ops closed_and_open))
         !! 0 = Some r' ∧ is_open_ r' = false)
  ∧ (∀ src other,
       src ≠ 0 →
       objs (default empty_world (@run libstdcxx sample_ops closed_and_open))
       !! src = Some other →
       ∃ w1, @step libstdcxx (MoveAssign 0 src)
               (default empty_world (@run libstdcxx sample_ops closed_and_open))
             = Some (Returns tt, w1)
             ∧ objs w1 !! 0 = Some other).
Proof.
  apply (@closed_stays_closed_unless_assigned libstdcxx sample_ops
           closed_and_open
           (default empty_world (@run libstdcxx sample_ops closed_and_open))
           0 {| name_ := "a"; is_open_ := false |}).
  - reflexivity.
  - reflexivity.
  - reflexivity.
  - reflexivity.
Defined.

(** C8, as the claim states it, fails, whatever the library: after
    [Resource a("a"); a.close(); Resource b("b");] the object [a] is
    closed, and [a = std::move(b);] makes it open again. *)
Lemma move_assign_reopens_closed_object :
  (∃ w w' : World,
     @run libstdcxx [New 0 "a"; Close 0; New 1 "b"] empty_world = Some w
     ∧ objs w !! 0 = Some {| name_ := "a"; is_open_ := false |}
     ∧ @run libstdcxx [MoveAssign 0 1] w = Some w'
     ∧ objs w' !! 0 = Some {| name_ := "b"; is_open_ := true |})
  ∧ ¬ ∃ lib : StdLib, @state_only_closes lib.
Proof.
  split.
  - eexists _, _. split; [reflexivity |]. split; [reflexivity |].
    split; reflexivity.
  - intros [lib Hclaim].
    pose (setup := [New 0 "a"; Close 0; New 1 "b"]).
    pose (w := default empty_world (run setup empty_world)).
    pose (w' := default empty_world (run [MoveAssign 0 1] w)).
    assert (Hfalse : true = false); [| discriminate].
    apply (Hclaim setup [MoveAssign 0 1] w w' 0
             {| name_ := "a"; is_open_ := false |}
             {| name_ := "b"; is_open_ := true |}); reflexivity.
Qed.

(** * Programs: scopes, [divide] and [main] *)

Lemma append_empty_r (s : string) : s +:+ "" = s.
Proof.
  induction s as [|ch s IH]; [done |].
  cbv [String.append] in *; fold String.append in *. by f_equal.
Qed.

Lemma append_empty_l (s : string) : "" +:+ s = s.
Proof. reflexivity. Qed.

Lemma printed_printed (c : Console) (t u : string) :
  printed (printed c t) u = printed c (t +:+ u).
Proof. unfold printed; simpl. by rewrite append_assoc. Qed.

Lemma Resource_dtor_returns `{StdLib} (fr : Frame) :
  fst (Resource_dtor fr) = Returns tt.
Proof.
  destruct fr as [r c]. destruct (is_open_ r) eqn:Ho.
  - by rewrite Resource_dtor_open.
  - by rewrite Resource_dtor_closed.
Qed.

(** The console after a destructor, by cases. *)
Lemma destroyed_open `{StdLib} (r : Resource) (c : Console) :
  is_open_ r = true →
  destroyed r c
  = if String.eqb (name_ r) "failing"
    then diagnosed (printed c (closed_line (name_ r))) (caught_line (name_ r))
    else printed c (closed_line (name_ r)).
Proof.
  intros Ho. unfold destroyed. rewrite Resource_dtor_open by done.
  simpl. by destruct (String.eqb (name_ r) "failing").
Qed.

Lemma destroyed_closed `{StdLib} (r : Resource) (c : Console) :
  is_open_ r = false → destroyed r c = c.
Proof. intros Hc. unfold destroyed. by rewrite Resource_dtor_closed. Qed.

Section Programs.
Context `{StdLib}.
Implicit Types (w : World) (a b dst src : addr) (r s : Resource).

Lemma step_New w a name :
  objs w !! a = None →
  step (New a name) w = Some (Returns tt, constructed a name w).
Proof.
  intros Ha. simpl. rewrite Ha. unfold constructed, printed, opened_line.
  unfold Resource_ctor; exec. by rewrite !append_assoc.
Qed.

Lemma step_Delete_destroyed w a r :
  objs w !! a = Some r →
  step (Delete a) w
  = Some (Returns tt,
          {| objs := delete a (objs w); console := destroyed r (console w) |}).
Proof.
  intros Ha. rewrite (step_Delete _ _ _ Ha). cbv zeta.
  by rewrite Resource_dtor_returns.
Qed.

Lemma step_PerformOperation_open w a r :
  objs w !! a = Some r → is_open_ r = true →
  step (PerformOperation a) w
  = if String.eqb (name_ r) "faulty"
    then Some (Throws (ResourceFaulty (name_ r)), w)
    else Some (Returns tt,
               {| objs := objs w;
                  console := printed (console w) (performed_line (name_ r)) |}).
Proof.
  intros Ha Ho. simpl. rewrite (call_eq _ _ _ _ Ha).
  rewrite performOperation_open by done.
  destruct (String.eqb (name_ r) "faulty"); simpl;
    rewrite insert_id by done; [by destruct w | done].
Qed.

(** What a scope does, when its object's address is free. *)
Lemma scoped_eq a name (body : Prog unit) w :
  objs w !! a = None →
  scoped a name body w
  = match body (constructed a name w) with
    | Some (Terminates, w2) => Some (Terminates, w2)
    | Some (o, w2) =>
        match objs w2 !! a with
        | Some r2 =>
            Some (o, {| objs := delete a (objs w2);
                        console := destroyed r2 (console w2) |})
        | None => None
        end
    | None => None
    end.
Proof.
  intros Ha. unfold scoped. rewrite (step_New _ _ _ Ha).
  destruct (body (constructed a name w)) as [[o w2]|]; [| done].
  destruct (objs w2 !! a) as [r2|] eqn:Ha2.
  - rewrite (step_Delete_destroyed _ _ _ Ha2). by destruct o.
  - assert (Hd : step (Delete a) w2 = None).
    { simpl. unfold call. by rewrite Ha2. }
    rewrite Hd. by destruct o.
Qed.

(** X1.  The scope guarantee.  Let [a] be free and let the body of
    [{ Resource a(name); body }] end, by returning or by throwing, with
    the object still alive.  Then the block ends the way its body ended,
    with the same exception if it threw, also when the automatic close
    fails; the object is gone, and the console is the one its destructor
    leaves. *)
Theorem scoped_destroys_and_keeps_outcome
    a name (body : Prog unit) w (o : outcome unit) w2 r2 :
  objs w !! a = None →
  body (constructed a name w) = Some (o, w2) →
  o ≠ Terminates →
  objs w2 !! a = Some r2 →
  scoped a name body w
  = Some (o, {| objs := delete a (objs w2);
                console := destroyed r2 (console w2) |}).
Proof.
  intros Ha Hbody Ho Ha2. rewrite scoped_eq by done.
  rewrite Hbody, Ha2. by destruct o.
Qed.

(** X2.  [{ Resource a(name); a.performOperation(); }], for every name:
    the resource is opened, operated on unless it is named ["faulty"]
    (then the block throws [ResourceFaulty]), and closed, in this order
    and once each; the store is left as it was.  For the name
    ["failing"] the failed close is reported on [std::cerr] and the
    block still returns normally. *)
Theorem scoped_operation a name w :
  objs w !! a = None →
  ∃ (o : outcome unit) (c : Console),
    scoped a name (step (PerformOperation a)) w
    = Some (o, {| objs := objs w; console := c |})
    ∧ (name = "faulty" →
       o = Throws (ResourceFaulty "faulty")
       ∧ cout c = cout (console w)
                  +:+ opened_line "faulty" +:+ closed_line "faulty")
    ∧ (name ≠ "faulty" →
       o = Returns tt
       ∧ cout c = cout (console w)
                  +:+ opened_line name +:+ performed_line name
                  +:+ closed_line name)
    ∧ (name = "failing" → cerr c = cerr (console w) +:+ caught_line "failing")
    ∧ (name ≠ "failing" → cerr c = cerr (console w)).
Proof.
  intros Ha. rewrite scoped_eq by done.
  assert (Hnew : objs (constructed a name w) !! a
                 = Some {| name_ := name; is_open_ := true |})
    by apply lookup_insert_eq.
  rewrite (step_PerformOperation_open _ _ _ Hnew) by done. simpl name_.
  assert (Hobjs : delete a (objs (constructed a name w)) = objs w)
    by by apply delete_insert_id.
  destruct (String.eqb_spec name "faulty") as [Hf | Hf].
  - rewrite Hnew, Hobjs, destroyed_open by done. simpl name_.
    destruct (String.eqb_spec name "failing") as [Hg | Hg]; [congruence |].
    eexists _, _. split; [done |]. subst name. simpl.
    rewrite !append_assoc. by repeat split.
  - cbn [objs console]. rewrite Hnew, Hobjs.
    rewrite destroyed_open by done. simpl name_.
    eexists _, _. split; [done |].
    destruct (String.eqb_spec name "failing") as [Hg | Hg]; simpl;
      rewrite !append_assoc; subst; by repeat split.
Qed.

(** A scope whose body leaves the store as it found it. *)
Lemma scoped_store_kept a name (body : Prog unit) w (o : outcome unit) c :
  objs w !! a = None →
  body (constructed a name w)
  = Some (o, {| objs := objs (constructed a name w); console := c |}) →
  o ≠ Terminates →
  scoped a name body w
  = Some (o, {| objs := objs w;
                console := destroyed {| name_ := name; is_open_ := true |} c |}).
Proof.
  intros Ha Hbody Ho. rewrite scoped_eq by done. rewrite Hbody.
  cbn [objs console].
  assert (Hnew : objs (constructed a name w) !! a
                 = Some {| name_ := name; is_open_ := true |})
    by apply lookup_insert_eq.
  rewrite Hnew. unfold constructed; cbn [objs console].
  rewrite delete_insert_id by done. by destruct o.
Qed.

(** [a.performOperation(); b.performOperation();] on two open
    resources: the first failure ends the sequence. *)
Lemma two_operations a b w ra rb :
  objs w !! a = Some ra → is_open_ ra = true →
  objs w !! b = Some rb → is_open_ rb = true →
  ((step (PerformOperation a);; step (PerformOperation b)) : Prog unit) w
  = Some (if String.eqb (name_ ra) "faulty"
          then Throws (ResourceFaulty (name_ ra))
          else if String.eqb (name_ rb) "faulty"
               then Throws (ResourceFaulty (name_ rb))
               else Returns tt,
          {| objs := objs w;
             console :=
               printed (console w)
                 (if String.eqb (name_ ra) "faulty" then ""
                  else performed_line (name_ ra)
                       +:+ (if String.eqb (name_ rb) "faulty" then ""
                            else performed_line (name_ rb))) |}).
Proof.
  intros Ha Hoa Hb Hob. unfold mbind, Prog_bind, prog_bind.
  rewrite (step_PerformOperation_open _ _ _ Ha Hoa).
  assert (Hnop : ∀ c : Console, printed c "" = c).
  { intros [co ce]. unfold printed; simpl. by rewrite append_empty_r. }
  destruct (String.eqb (name_ ra) "faulty").
  - rewrite Hnop. by destruct w.
  - rewrite (step_PerformOperation_open _ b rb) by done.
    cbn [objs console].
    destruct (String.eqb (name_ rb) "faulty").
    + by rewrite append_empty_r.
    + by rewrite printed_printed.
Qed.

(** X3.  Two resources in one block, both operated on, for every two
    names:
    [{ Resource a(n1); Resource b(n2); a.performOperation();
       b.performOperation(); }].
    Both are opened, [n1] first; the operations run up to the first one
    that fails (a resource named ["faulty"]), whose [ResourceFaulty]
    leaves the block; and on every path both resources are closed once,
    [n2] before [n1], a failed close (name ["failing"]) being reported on
    [std::cerr] only.  The store is left as it was. *)
Theorem two_scoped_resources a b (n1 n2 : string) w :
  a ≠ b → objs w !! a = None → objs w !! b = None →
  scoped a n1
    (scoped b n2 (step (PerformOperation a);; step (PerformOperation b))) w
  = Some (if String.eqb n1 "faulty" then Throws (ResourceFaulty n1)
          else if String.eqb n2 "faulty" then Throws (ResourceFaulty n2)
               else Returns tt,
          {| objs := objs w;
             console :=
               {| cout := cout (console w)
                          +:+ opened_line n1 +:+ opened_line n2
                          +:+ (if String.eqb n1 "faulty" then ""
                               else performed_line n1
                                    +:+ (if String.eqb n2 "faulty" then ""
                                         else performed_line n2))
                          +:+ closed_line n2 +:+ closed_line n1;
                  cerr := cerr (console w)
                          +:+ (if String.eqb n2 "failing"
                               then caught_line n2 else "")
                          +:+ (if String.eqb n1 "failing"
                               then caught_line n1 else "") |} |}).
Proof.
  intros Hab Ha Hb.
  set (body := (step (PerformOperation a);; step (PerformOperation b))
               : Prog unit).
  set (wa := constructed a n1 w).
  assert (Hwb : objs wa !! b = None).
  { subst wa. simpl. by rewrite lookup_insert_ne. }
  assert (Hla : objs (constructed b n2 wa) !! a
                = Some {| name_ := n1; is_open_ := true |}).
  { simpl. rewrite lookup_insert_ne by done. apply lookup_insert_eq. }
  assert (Hlb : objs (constructed b n2 wa) !! b
                = Some {| name_ := n2; is_open_ := true |})
    by apply lookup_insert_eq.
  assert (Hbody := two_operations a b _ _ _ Hla eq_refl Hlb eq_refl).
  fold body in Hbody. cbn [name_] in Hbody.
  assert (Hne : (if String.eqb n1 "faulty"
                 then Throws (ResourceFaulty n1)
                 else if String.eqb n2 "faulty"
                      then Throws (ResourceFaulty n2)
                      else Returns tt) ≠ (Terminates : outcome unit)).
  { destruct (String.eqb n1 "faulty"); [done |].
    by destruct (String.eqb n2 "faulty"). }
  assert (Hinner := scoped_store_kept b n2 body wa _ _ Hwb Hbody Hne).
  rewrite (scoped_store_kept a n1 (scoped b n2 body) w _ _ Ha Hinner Hne).
  f_equal. f_equal. f_equal.
  rewrite !destroyed_open by done. cbn [name_].
  subst wa. unfold constructed, printed, diagnosed; cbn [console cout cerr].
  destruct (String.eqb n2 "failing"), (String.eqb n1 "failing");
    cbn [cout cerr]; rewrite ?append_assoc, ?append_empty_r; try done.
Qed.

End Programs.

Lemma scoped_destroys_and_keeps_outcome_witness :
  @scoped libstdcxx 0 "failing" (on_console (throw (runtime_error "boom")))
    empty_world
  = Some (Throws (runtime_error "boom"),
          {| objs := delete 0 (objs (constructed 0 "failing" empty_world));
             console := @destroyed libstdcxx
                          {| name_ := "failing"; is_open_ := true |}
                          (console (constructed 0 "failing" empty_world)) |}).
Proof.
  apply (@scoped_destroys_and_keeps_outcome libstdcxx 0 "failing"
           (on_console (throw (runtime_error "boom"))) empty_world
           (Throws (runtime_error "boom"))
           (constructed 0 "failing" empty_world)
           {| name_ := "failing"; is_open_ := true |}).
  - reflexivity.
  - reflexivity.
  - discriminate.
  - reflexivity.
Defined.

Lemma scoped_operation_witness :
  ∃ (o : outcome unit) (c : Console),
    @scoped libstdcxx 1 "r1" (@step libstdcxx (PerformOperation 1)) empty_world
    = Some (o, {| objs := objs empty_world; console := c |})
    ∧ ("r1" = "faulty" →
       o = Throws (ResourceFaulty "faulty")
       ∧ cout c = cout (console empty_world)
                  +:+ opened_line "faulty" +:+ closed_line "faulty")
    ∧ ("r1" ≠ "faulty" →
       o = Returns tt
       ∧ cout c = cout (console empty_world)
                  +:+ opened_line "r1" +:+ performed_line "r1"
                  +:+ closed_line "r1")
    ∧ ("r1" = "failing" →
       cerr c = cerr (console empty_world) +:+ caught_line "failing")
    ∧ ("r1" ≠ "failing" → cerr c = cerr (console empty_world)).
Proof.
  apply (@scoped_operation libstdcxx 1 "r1" empty_world).
  reflexivity.
Defined.

Lemma two_scoped_resources_witness :
  @scoped libstdcxx 2 "faulty"
    (@scoped libstdcxx 3 "failing"
       (@step libstdcxx (PerformOperation 2);;
        @step libstdcxx (PerformOperation 3))) empty_world
  = Some (if String.eqb "faulty" "faulty"
          then Throws (ResourceFaulty "faulty")
          else if String.eqb "failing" "faulty"
               then Throws (ResourceFaulty "failing")
               else Returns tt,
          {| objs := objs empty_world;
             console :=
               {| cout := cout (console empty_world)
                          +:+ opened_line "faulty" +:+ opened_line "failing"
                          +:+ (if String.eqb "faulty" "faulty" then ""
                               else performed_line "faulty"
                                    +:+ (if String.eqb "failing" "faulty"
                                         then ""
                                         else performed_line "failing"))
                          +:+ closed_line "failing" +:+ closed_line "faulty";
                  cerr := cerr (console empty_world)
                          +:+ (if String.eqb "failing" "failing"
                               then caught_line "failing" else "")
                          +:+ (if String.eqb "faulty" "failing"
                               then caught_line "faulty" else "") |} |}).
Proof.
  apply (@two_scoped_resources libstdcxx 2 3 "faulty" "failing" empty_world).
  - discriminate.
  - reflexivity.
  - reflexivity.
Defined.

(** ** main *)

(** X4.  [main] returns 0 with every library: no exception reaches the
    top-level handler and nothing terminates the program.  Every
    resource it constructs is destroyed, and closed once: the store is
    empty at the end and [std::cout] holds the transcript below, in which
    [r3] ("failing") is closed before [r2] ("faulty") and [resource]
    ("basic") last.  The one failed close is on [std::cerr].  The line
    ["Nested error: "] shows what the library's [std::exception] answers
    after the copy of the cause. *)
Theorem main_returns_zero (lib : StdLib) :
  main empty_world
  = Some (Returns 0%Z,
          {| objs := ∅;
             console :=
               {| cout :=
                    nl +:+ "1. Smart Pointer Example:" +:+ nl
                    +:+ opened_line "basic" +:+ performed_line "basic"
                    +:+ nl +:+ "2. Multiple Catch Blocks:" +:+ nl
                    +:+ "Caught exception: Runtime error" +:+ nl
                    +:+ nl +:+ "3. RAII Example:" +:+ nl
                    +:+ opened_line "r1" +:+ performed_line "r1"
                    +:+ closed_line "r1"
                    +:+ nl +:+ "4. Exception Specification:" +:+ nl
                    +:+ "Division error: Division by zero" +:+ nl
                    +:+ nl +:+ "5. Nested Exceptions:" +:+ nl
                    +:+ "Main error: Wrapper error" +:+ nl
                    +:+ "Nested error: " +:+ sliced_what "Original error"
                    +:+ nl
                    +:+ nl +:+ "6. Multiple Resources:" +:+ nl
                    +:+ opened_line "faulty" +:+ opened_line "failing"
                    +:+ closed_line "failing" +:+ closed_line "faulty"
                    +:+ "Resource error: Resource faulty is faulty" +:+ nl
                    +:+ closed_line "basic";
                  cerr := caught_line "failing" |} |}).
Proof. vm_compute. rewrite !append_assoc. reflexivity. Qed.

(** ** divide *)

(** X5.  [divide<int>]: a zero divisor is answered by
    [std::invalid_argument("Division by zero")], whatever the dividend,
    and no division takes place.  For a non-zero divisor, [INT_MIN / -1]
    apart, the result is an [int]: the quotient truncated toward zero,
    the remainder being smaller than the divisor in absolute value and of
    the sign of the dividend.  [divide(INT_MIN, -1)] overflows: it has no
    defined result, and [divide] does not guard against it. *)
Theorem divide_int (a b : Z) (w : World) :
  is_int a → is_int b →
  (b = 0%Z →
   divide a b w = Some (Throws (invalid_argument "Division by zero"), w))
  ∧ (b ≠ 0%Z → ¬ (a = INT_MIN ∧ b = (-1)%Z) →
     ∃ q : Z,
       divide a b w = Some (Returns q, w)
       ∧ is_int q
       ∧ (Z.abs (a - b * q) < Z.abs b)%Z
       ∧ (0 ≤ a * (a - b * q))%Z)
  ∧ (a = INT_MIN → b = (-1)%Z → divide a b w = None).
Proof.
  intros Ha Hb. unfold divide, is_zero, quotient, int_Divisible.
  split; [| split].
  - intros ->. reflexivity.
  - intros Hnz Hov. rewrite (proj2 (Z.eqb_neq b 0)) by done. simpl.
    assert (Hguard : ((a =? INT_MIN) && (b =? -1))%Z = false).
    { apply andb_false_iff.
      destruct (Z.eqb_spec a INT_MIN); [| by left].
      destruct (Z.eqb_spec b (-1)); [| by right]. tauto. }
    rewrite Hguard. exists (Z.quot a b). split; [done |].
    pose proof (Z.quot_rem' a b) as Hqr.
    pose proof (Z.rem_bound_abs a b Hnz) as Hr.
    pose proof (Z.rem_sign_mul a b Hnz) as Hs.
    assert (Hrem : (a - b * Z.quot a b = Z.rem a b)%Z) by lia.
    rewrite Hrem. split; [| split; [done | lia]].
    unfold is_int, INT_MIN, INT_MAX in *.
    assert (Hbq : (Z.abs b * Z.abs (Z.quot a b) ≤ Z.abs a)%Z).
    { pose proof (Z.mul_quot_le (Z.abs a) (Z.abs b) (Z.abs_nonneg a)) as Hle.
      rewrite Z.quot_abs in Hle by done. apply Hle. lia. }
    destruct (Z.eq_dec b 1%Z) as [-> | Hb1].
    { rewrite Z.quot_1_r. lia. }
    destruct (Z.eq_dec b (-1)%Z) as [-> | Hb2].
    { assert (a ≠ (-2147483648)%Z) by tauto.
      change (Z.abs (-1)) with 1%Z in Hbq. lia. }
    nia.
  - intros -> ->. reflexivity.
Qed.

Lemma divide_int_witness :
  ((2 = 0)%Z →
   divide (-7)%Z 2%Z empty_world
   = Some (Throws (invalid_argument "Division by zero"), empty_world))
  ∧ ((2 ≠ 0)%Z → ¬ ((-7)%Z = INT_MIN ∧ 2%Z = (-1)%Z) →
     ∃ q : Z,
       divide (-7)%Z 2%Z empty_world = Some (Returns q, empty_world)
       ∧ is_int q
       ∧ (Z.abs (-7 - 2 * q) < Z.abs 2)%Z
       ∧ (0 ≤ -7 * (-7 - 2 * q))%Z)
  ∧ ((-7)%Z = INT_MIN → 2%Z = (-1)%Z →
     divide (-7)%Z 2%Z empty_world = None).
Proof.
  apply (divide_int (-7) 2 empty_world); unfold is_int, INT_MIN, INT_MAX; lia.
Defined.

(** ** Move assignment, once more *)

Section MovesAndOutcomes.
Context `{StdLib}.
Implicit Types (w : World) (a dst src : addr) (r self : Resource).

(** X6.  Move assignment does not close what its destination holds.
    After [dst = std::move(src);] and the end of both lifetimes, both
    objects are gone and the console shows what the destruction of the
    source's resource [r] alone shows; the resource [dst] held before is
    dropped, and if it was open it is never closed: with a closed source
    nothing at all is printed. *)
Theorem move_assign_drops_destination w dst src self r :
  objs w !! dst = Some self → objs w !! src = Some r → dst ≠ src →
  ∃ w',
    run [MoveAssign dst src; Delete dst; Delete src] w = Some w'
    ∧ objs w' !! dst = None ∧ objs w' !! src = None
    ∧ console w' = destroyed r (console w)
    ∧ (is_open_ r = false → console w' = console w).
Proof.
  intros Hd Hs Hne. cbn [run].
  rewrite (step_MoveAssign _ _ _ _ _ Hd Hs Hne).
  set (left := {| name_ := moved_from_assign (name_ self) (name_ r);
                  is_open_ := false |}).
  set (w1 := {| objs := <[dst := r]> (<[src := left]> (objs w));
                console := console w |}).
  assert (Hd1 : objs w1 !! dst = Some r) by apply lookup_insert_eq.
  rewrite (step_Delete_destroyed w1 dst r Hd1).
  set (w2 := {| objs := delete dst (objs w1);
                console := destroyed r (console w1) |}).
  assert (Hs2 : objs w2 !! src = Some left).
  { subst w2 w1. cbn [objs]. rewrite lookup_delete_ne by done.
    rewrite lookup_insert_ne by done. apply lookup_insert_eq. }
  rewrite (step_Delete_destroyed w2 src left Hs2).
  eexists. split; [done |]. cbn [objs console].
  rewrite destroyed_closed by done.
  split; [| split; [apply lookup_delete_eq | split; [done |]]].
  - rewrite lookup_delete_ne by done. apply lookup_delete_eq.
  - intros Hc. subst w2 w1. cbn [console]. by apply destroyed_closed.
Qed.

(** X7.  Self-assignment [a = std::move(a);] changes nothing, thanks to
    the test [this != &other]: a program goes on after it exactly as it
    would without it, the resource still open if it was. *)
Theorem self_move_assign_is_noop w a (ops : list op) :
  is_Some (objs w !! a) →
  step (MoveAssign a a) w = Some (Returns tt, w)
  ∧ run (MoveAssign a a :: ops) w = run ops w.
Proof.
  intros [r Ha]. cbn [run]. by rewrite (step_MoveAssign_self _ _ _ Ha).
Qed.

(** ** What an operation can end in, and what it can print *)

(** X8.  No operation on a resource ever calls [std::terminate], and
    construction, both moves and the end of a lifetime always return
    normally.  [performOperation] returns or throws [ResourceClosed] or
    [ResourceFaulty] for the name of its resource, [close] returns or
    throws [CloseFailed]; these exceptions carry no nested cause. *)
Theorem step_outcome (o : op) w (out : outcome unit) w' :
  step o w = Some (out, w') →
  out ≠ Terminates
  ∧ (∀ e, out = Throws e → nested e = None)
  ∧ match o with
    | PerformOperation a =>
        ∃ r, objs w !! a = Some r
             ∧ (out = Returns tt
                ∨ out = Throws (ResourceClosed (name_ r))
                ∨ out = Throws (ResourceFaulty (name_ r)))
    | Close a =>
        ∃ r, objs w !! a = Some r
             ∧ (out = Returns tt ∨ out = Throws (CloseFailed (name_ r)))
    | _ => out = Returns tt
    end.
Proof.
  intros Hstep.
  assert (Hcase : match o with
    | PerformOperation a =>
        ∃ r, objs w !! a = Some r
             ∧ (out = Returns tt
                ∨ out = Throws (ResourceClosed (name_ r))
                ∨ out = Throws (ResourceFaulty (name_ r)))
    | Close a =>
        ∃ r, objs w !! a = Some r
             ∧ (out = Returns tt ∨ out = Throws (CloseFailed (name_ r)))
    | _ => out = Returns tt
    end).
  { destruct o as [a name | a | a | a src | dst src | a]; simpl in Hstep.
    - destruct (objs w !! a); [discriminate |]. by injection Hstep as <- _.
    - destruct (objs w !! a) as [r|] eqn:Ha;
        [| unfold call in Hstep; by rewrite Ha in Hstep].
      rewrite (call_eq _ _ _ _ Ha) in Hstep. injection Hstep as <- _.
      exists r. split; [done |]. destruct (is_open_ r) eqn:Ho.
      + rewrite performOperation_open by done.
        destruct (String.eqb (name_ r) "faulty"); auto.
      + rewrite performOperation_closed by done. auto.
    - destruct (objs w !! a) as [r|] eqn:Ha;
        [| unfold call in Hstep; by rewrite Ha in Hstep].
      rewrite (call_eq _ _ _ _ Ha) in Hstep. injection Hstep as <- _.
      exists r. split; [done |]. destruct (is_open_ r) eqn:Ho.
      + rewrite close_open by done. simpl.
        destruct (String.eqb (name_ r) "failing"); auto.
      + rewrite close_closed by done. auto.
    - destruct (objs w !! a); [discriminate |].
      destruct (objs w !! src); [| discriminate]. by injection Hstep as <- _.
    - destruct (objs w !! dst); [| discriminate].
      destruct (objs w !! src); [| discriminate].
      destruct (decide (dst ≠ src)); by injection Hstep as <- _.
    - destruct (objs w !! a) as [r|] eqn:Ha;
        [| unfold call in Hstep; by rewrite Ha in Hstep].
      rewrite (call_eq _ _ _ _ Ha) in Hstep. cbv zeta in Hstep.
      injection Hstep as <- _. apply Resource_dtor_returns. }
  split; [| split; [| exact Hcase]].
  - destruct o; try (by rewrite Hcase);
      destruct Hcase as (r & _ & Hout); intros ->;
      by repeat destruct Hout as [Hout | Hout].
  - intros e ->.
    destruct o; try discriminate;
      destruct Hcase as (r & _ & Hout);
      repeat destruct Hout as [Hout | Hout];
      try discriminate; by injection Hout as ->.
Qed.

End MovesAndOutcomes.

Section Output.
Context `{StdLib}.
Implicit Types (w : World) (a : addr) (r : Resource) (c : Console).

Lemma printed_nothing c : printed c "" = c.
Proof. destruct c. unfold printed; simpl. by rewrite append_empty_r. Qed.

Lemma diagnosed_nothing c : diagnosed c "" = c.
Proof. destruct c. unfold diagnosed; simpl. by rewrite append_empty_r. Qed.

Lemma diagnosed_printed_twice c (t1 d1 t2 d2 : string) :
  diagnosed (printed (diagnosed (printed c t1) d1) t2) d2
  = diagnosed (printed c (t1 +:+ t2)) (d1 +:+ d2).
Proof. unfold diagnosed, printed; simpl. by rewrite !append_assoc. Qed.

(** A member function that only prints, called on any object. *)
Lemma call_prints {A} (f : M Frame A) a w (out : outcome A) w' :
  (∀ fr, ∃ text, io (snd (f fr)) = printed (io fr) text) →
  call a f w = Some (out, w') →
  ∃ text, console w' = printed (console w) text.
Proof.
  intros Hf Hcall. unfold call in Hcall.
  destruct (objs w !! a) as [r|]; [| discriminate].
  destruct (Hf {| this := r; io := console w |}) as [text Htext].
  destruct (f {| this := r; io := console w |}) as [o fr].
  injection Hcall as _ <-. eauto.
Qed.

Lemma performOperation_prints (fr : Frame) :
  ∃ text, io (snd (performOperation fr)) = printed (io fr) text.
Proof.
  destruct fr as [r c]. destruct (is_open_ r) eqn:Ho.
  - rewrite performOperation_open by done.
    destruct (String.eqb (name_ r) "faulty"); simpl; [| eauto].
    exists "". by rewrite printed_nothing.
  - rewrite performOperation_closed by done. simpl.
    exists "". by rewrite printed_nothing.
Qed.

Lemma close_prints (fr : Frame) :
  ∃ text, io (snd (close fr)) = printed (io fr) text.
Proof.
  destruct fr as [r c]. destruct (is_open_ r) eqn:Ho.
  - rewrite close_open by done. simpl. eauto.
  - rewrite close_closed by done. simpl.
    exists "". by rewrite printed_nothing.
Qed.

Lemma step_output (o : op) w (out : outcome unit) w' :
  step o w = Some (out, w') →
  ∃ text diag,
    console w' = diagnosed (printed (console w) text) diag
    ∧ (no_delete o = true → diag = "").
Proof.
  intros Hstep.
  assert (Hprint : ∀ text, console w' = printed (console w) text →
            ∃ text diag,
              console w' = diagnosed (printed (console w) text) diag
              ∧ (no_delete o = true → diag = "")).
  { intros text ->. exists text, "". by rewrite diagnosed_nothing. }
  destruct o as [a name | a | a | a src | dst src | a].
  - destruct (objs w !! a) eqn:Ha;
      [simpl in Hstep; by rewrite Ha in Hstep |].
    rewrite (step_New w a name Ha) in Hstep. injection Hstep as _ <-.
    by eapply Hprint.
  - destruct (call_prints _ _ _ _ _ performOperation_prints Hstep) as [t Ht].
    by eapply Hprint.
  - destruct (call_prints _ _ _ _ _ close_prints Hstep) as [t Ht].
    by eapply Hprint.
  - simpl in Hstep. destruct (objs w !! a); [discriminate |].
    destruct (objs w !! src); [| discriminate]. injection Hstep as _ <-.
    apply (Hprint ""). simpl. by rewrite printed_nothing.
  - simpl in Hstep. destruct (objs w !! dst); [| discriminate].
    destruct (objs w !! src); [| discriminate].
    destruct (decide (dst ≠ src)); injection Hstep as _ <-;
      apply (Hprint ""); simpl; by rewrite printed_nothing.
  - destruct (objs w !! a) as [r|] eqn:Ha;
      [| simpl in Hstep; unfold call in Hstep; by rewrite Ha in Hstep].
    rewrite (step_Delete_destroyed w a r Ha) in Hstep.
    injection Hstep as _ <-. cbn [console].
    destruct (is_open_ r) eqn:Ho.
    + rewrite destroyed_open by done.
      destruct (String.eqb (name_ r) "failing").
      * eexists _, _. split; [done |]. discriminate.
      * eexists _, "". rewrite diagnosed_nothing. split; [done |].
        discriminate.
    + rewrite destroyed_closed by done. exists "", "".
      rewrite printed_nothing, diagnosed_nothing. split; [done |].
      discriminate.
Qed.

(** X9.  Output is only ever added: along every run, [std::cout] and
    [std::cerr] at the end are what they were at the start followed by
    what the run wrote.  As long as no lifetime ends in the run,
    nothing is written to [std::cerr]: a failure of [performOperation] or
    of an explicit [close] is thrown to the caller and not reported
    there. *)
Theorem run_output (ops : list op) w w' :
  run ops w = Some w' →
  ∃ text diag,
    cout (console w') = cout (console w) +:+ text
    ∧ cerr (console w') = cerr (console w) +:+ diag
    ∧ (forallb no_delete ops = true → diag = "").
Proof.
  intros Hrun.
  assert (Hgoal : ∃ text diag,
            console w' = diagnosed (printed (console w) text) diag
            ∧ (forallb no_delete ops = true → diag = "")).
  { revert w Hrun. induction ops as [|o rest IH]; intros w Hrun.
    - injection Hrun as <-. exists "", "".
      by rewrite printed_nothing, diagnosed_nothing.
    - simpl in Hrun.
      destruct (step o w) as [[out w1]|] eqn:Hstep; [| discriminate].
      destruct (step_output _ _ _ _ Hstep) as (t1 & d1 & Hc1 & Hd1).
      assert (Hrest : out ≠ Terminates → run rest w1 = Some w' →
                ∃ text diag,
                  console w' = diagnosed (printed (console w) text) diag
                  ∧ (forallb no_delete (o :: rest) = true → diag = "")).
      { intros _ Hrun1.
        destruct (IH _ Hrun1) as (t2 & d2 & Hc2 & Hd2).
        exists (t1 +:+ t2), (d1 +:+ d2).
        rewrite Hc2, Hc1, diagnosed_printed_twice. split; [done |].
        simpl. intros [Ho Hr]%andb_true_iff.
        by rewrite Hd1, Hd2. }
      destruct out; [by apply Hrest | by apply Hrest |].
      injection Hrun as <-. exists t1, d1. split; [done |].
      simpl. intros [Ho Hr]%andb_true_iff. by apply Hd1. }
  destruct Hgoal as (text & diag & Hc & Hd).
  exists text, diag. by rewrite Hc.
Qed.

End Output.

Lemma move_assign_drops_destination_witness :
  ∃ w',
    @run libstdcxx [MoveAssign 1 0; Delete 1; Delete 0] closed_and_open
    = Some w'
    ∧ objs w' !! 1 = None ∧ objs w' !! 0 = None
    ∧ console w'
      = @destroyed libstdcxx {| name_ := "a"; is_open_ := false |}
          (console closed_and_open)
    ∧ (is_open_ {| name_ := "a"; is_open_ := false |} = false →
       console w' = console closed_and_open).
Proof.
  apply (@move_assign_drops_destination libstdcxx closed_and_open 1 0
           {| name_ := "b"; is_open_ := true |}
           {| name_ := "a"; is_open_ := false |}).
  - reflexivity.
  - reflexivity.
  - discriminate.
Defined.

Lemma self_move_assign_is_noop_witness :
  @step libstdcxx (MoveAssign 1 1) one_open = Some (Returns tt, one_open)
  ∧ @run libstdcxx [MoveAssign 1 1; PerformOperation 1; Delete 1] one_open
    = @run libstdcxx [PerformOperation 1; Delete 1] one_open.
Proof.
  apply (@self_move_assign_is_noop libstdcxx one_open 1
           [PerformOperation 1; Delete 1]).
  eexists. reflexivity.
Defined.

Lemma step_outcome_witness :
  (Throws (CloseFailed "failing") : outcome unit) ≠ Terminates
  ∧ (∀ e, (Throws (CloseFailed "failing") : outcome unit) = Throws e →
          nested e = None)
  ∧ ∃ r, objs (constructed 0 "failing" empty_world) !! 0 = Some r
         ∧ ((Throws (CloseFailed "failing") : outcome unit) = Returns tt
            ∨ (Throws (CloseFailed "failing") : outcome unit)
              = Throws (CloseFailed (name_ r))).
Proof.
  apply (@step_outcome libstdcxx (Close 0)
           (constructed 0 "failing" empty_world)
           (Throws (CloseFailed "failing"))
           {| objs := {[ 0 := {| name_ := "failing"; is_open_ := false |} ]};
              console := printed (console (constructed 0 "failing" empty_world))
                           (closed_line "failing") |}).
  reflexivity.
Defined.

Lemma run_output_witness :
  ∃ text diag,
    cout (console (default empty_world
                     (@run libstdcxx sample_ops closed_and_open)))
    = cout (console closed_and_open) +:+ text
    ∧ cerr (console (default empty_world
                       (@run libstdcxx sample_ops closed_and_open)))
      = cerr (console closed_and_open) +:+ diag
    ∧ (forallb no_delete sample_ops = true → diag = "").
Proof.
  apply (@run_output libstdcxx sample_ops closed_and_open
           (default empty_world (@run libstdcxx sample_ops closed_and_open))).
  reflexivity.
Defined.

(** ** The life of one resource *)

Section Lifecycle.
Context `{StdLib}.
Implicit Types (w : World) (a : addr) (r : Resource) (c : Console).

Lemma step_Close_closed w a r :
  objs w !! a = Some r → is_open_ r = false →
  step (Close a) w = Some (Returns tt, w).
Proof.
  intros Ha Hc. simpl. rewrite (call_eq _ _ _ _ Ha).
  rewrite close_closed by done. simpl.
  rewrite insert_id by done. by destruct w.
Qed.

Lemma step_Close_open w a r :
  objs w !! a = Some r → is_open_ r = true →
  step (Close a) w
  = Some (if String.eqb (name_ r) "failing"
          then Throws (CloseFailed (name_ r)) else Returns tt,
          {| objs := <[a := closed r]> (objs w);
             console := printed (console w) (closed_line (name_ r)) |}).
Proof.
  intros Ha Ho. simpl. rewrite (call_eq _ _ _ _ Ha).
  by rewrite close_open.
Qed.

(** Uses of a closed resource leave the world as it is. *)
Lemma run_uses_closed (us : list use) (rest : list op) w a r :
  objs w !! a = Some r → is_open_ r = false →
  run (map (use_op a) us ++ rest) w = run rest w.
Proof.
  intros Ha Hc.
  induction us as [|[|] us IH]; [done | |]; cbn [map app run use_op].
  - by rewrite (step_PerformOperation_closed _ _ _ Ha Hc).
  - by rewrite (step_Close_closed _ _ _ Ha Hc).
Qed.

(** Uses of an open resource, up to the end of its lifetime. *)
Lemma run_uses_open (us : list use) (m : gmap addr Resource) a name c :
  m !! a = None →
  run (map (use_op a) us ++ [Delete a])
    {| objs := <[a := {| name_ := name; is_open_ := true |}]> m;
       console := c |}
  = Some
      {| objs := m;
         console :=
           diagnosed
             (printed c
                (lines (if String.eqb name "faulty" then 0
                        else operations_while_open us)
                   (performed_line name)
                 +:+ closed_line name))
             (if String.eqb name "failing" && negb (closes_explicitly us)
              then caught_line name else "") |}.
Proof.
  intros Hm. revert c. induction us as [|[|] us IH]; intros c.
  - cbn [map app run use_op].
    rewrite (step_Delete_destroyed _ a {| name_ := name; is_open_ := true |})
      by apply lookup_insert_eq.
    cbn [objs console]. rewrite delete_insert_id by done.
    rewrite destroyed_open by done. cbn [name_].
    simpl closes_explicitly. rewrite andb_true_r.
    assert (Hl : lines (if String.eqb name "faulty" then 0
                        else operations_while_open [])
                   (performed_line name) = "")
      by by destruct (String.eqb name "faulty").
    rewrite Hl, append_empty_l.
    destruct (String.eqb name "failing"); [done |].
    by rewrite diagnosed_nothing.
  - cbn [map app run use_op].
    rewrite (step_PerformOperation_open _ a
               {| name_ := name; is_open_ := true |})
      by (done || apply lookup_insert_eq).
    cbn [name_ objs console]. simpl closes_explicitly.
    destruct (String.eqb name "faulty") eqn:Hf.
    + by rewrite IH.
    + rewrite IH, printed_printed.
      cbn [operations_while_open lines]. by rewrite append_assoc.
  - cbn [map app run use_op].
    rewrite (step_Close_open _ a {| name_ := name; is_open_ := true |})
      by (done || apply lookup_insert_eq).
    cbn [name_ objs console]. rewrite insert_insert_eq.
    assert (Hrest : run (map (use_op a) us ++ [Delete a])
                      {| objs := <[a := closed {| name_ := name;
                                                  is_open_ := true |}]> m;
                         console := printed c (closed_line name) |}
                    = Some {| objs := m;
                              console := printed c (closed_line name) |}).
    { rewrite (run_uses_closed us [Delete a] _ a
                 (closed {| name_ := name; is_open_ := true |}))
        by (done || apply lookup_insert_eq).
      cbn [run].
      rewrite (step_Delete_destroyed _ a
                 (closed {| name_ := name; is_open_ := true |}))
        by apply lookup_insert_eq.
      cbn [objs console]. rewrite delete_insert_id by done.
      by rewrite destroyed_closed. }
    simpl closes_explicitly. rewrite andb_false_r, diagnosed_nothing.
    assert (Hl : lines (if String.eqb name "faulty" then 0
                        else operations_while_open (CloseNow :: us))
                   (performed_line name) = "")
      by by destruct (String.eqb name "faulty").
    rewrite Hl, append_empty_l.
    by destruct (String.eqb name "failing").
Qed.

(** X10.  The life of a resource, whatever its owner does with it.  For
    every name and every sequence of [performOperation] and [close]
    calls between [Resource a(name);] and the end of [a]'s lifetime:
    the run is defined and leaves the store as it was; [std::cout] gets
    the opened line, one operation line for each [performOperation]
    before the first [close] (none for the name ["faulty"]), and the
    closed line exactly once, printed by the first [close] or else by
    the destructor.  [std::cerr] gets the caught close failure only when
    the name is ["failing"] and the destructor had to close. *)
Theorem resource_life (us : list use) w a (name : string) :
  objs w !! a = None →
  run (New a name :: map (use_op a) us ++ [Delete a]) w
  = Some
      {| objs := objs w;
         console :=
           {| cout := cout (console w)
                      +:+ opened_line name
                      +:+ lines (if String.eqb name "faulty" then 0
                                 else operations_while_open us)
                            (performed_line name)
                      +:+ closed_line name;
              cerr := cerr (console w)
                      +:+ (if String.eqb name "failing"
                              && negb (closes_explicitly us)
                           then caught_line name else "") |} |}.
Proof.
  intros Ha. cbn [run]. rewrite (step_New _ _ _ Ha).
  unfold constructed. rewrite run_uses_open by done.
  unfold diagnosed, printed; cbn [cout cerr].
  by rewrite !append_assoc.
Qed.

End Lifecycle.

Lemma resource_life_witness :
  @run libstdcxx
    (New 0 "failing"
     :: map (use_op 0) [Operate; Operate; CloseNow; Operate; CloseNow]
        ++ [Delete 0]) empty_world
  = Some
      {| objs := objs empty_world;
         console :=
           {| cout := cout (console empty_world)
                      +:+ opened_line "failing"
                      +:+ lines (if String.eqb "failing" "faulty" then 0
                                 else operations_while_open
                                        [Operate; Operate; CloseNow;
                                         Operate; CloseNow])
                            (performed_line "failing")
                      +:+ closed_line "failing";
              cerr := cerr (console empty_world)
                      +:+ (if String.eqb "failing" "failing"
                              && negb (closes_explicitly
                                         [Operate; Operate; CloseNow;
                                          Operate; CloseNow])
                           then caught_line "failing" else "") |} |}.
Proof.
  apply (@resource_life libstdcxx
           [Operate; Operate; CloseNow; Operate; CloseNow]
           empty_world 0 "failing").
  reflexivity.
Defined.
